(** * GroBot chat client: the conversation store and its transport

    A shallow embedding of [frontend/src/app/api/chat.ts] (module [Api]), of
    [frontend/src/app/store/chatStore.ts] (module [Store]) and of the
    handlers of [components/InputArea.tsx] and their wiring in
    [components/ChatInterface.tsx], followed by the properties of the
    conversation state that the specification states and by further
    properties read off the code.

    Conventions of the embedding:
    - a promise is the [completion] it settles with: [Returns] for a
      fulfilled promise or a normal return, [Throws] for a rejection or a
      [throw];
    - an [async] function is cut at its [await]: the part that runs before
      the suspension and the continuation that runs on the settled value;
    - the store is a value of [ChatState], and Zustand's [set] is the
      shallow merge of a partial state into it. *)

From Stdlib Require Import String List NArith QArith DecimalString DecimalPos DecimalN Lia Bool.
Import ListNotations.

Open Scope list_scope.
Open Scope N_scope.

(** ** JavaScript values and completions *)

(** The values that can travel through the code: what [JSON.parse] produces,
    plus [undefined], which a missing property reads as.  An object is the
    list of its own properties in insertion order. *)
#[local] Unset Elimination Schemes.
Inductive value : Type :=
| VUndefined
| VNull
| VBool (b : bool)
| VNum (q : Q)
| VStr (s : string)
| VArr (items : list value)
| VObj (props : list (string * value)).
#[local] Set Elimination Schemes.

(** What a [catch] clause can receive: an instance of [Error] with its
    [message], or any other thrown value. *)
Inductive thrown : Type :=
| ErrorObject (message : string)
| OtherThrown (v : value).

Inductive completion (A : Type) : Type :=
| Returns (a : A)
| Throws (e : thrown).
Arguments Returns {A} a.
Arguments Throws {A} e.

Definition bind {A B : Type} (c : completion A) (k : A -> completion B)
  : completion B :=
  match c with
  | Returns a => k a
  | Throws e => Throws e
  end.

(** [try { c } catch (error) { handler error }] *)
Definition try_catch {A : Type} (c : completion A)
  (handler : thrown -> completion A) : completion A :=
  match c with
  | Returns a => Returns a
  | Throws e => handler e
  end.

Notation "x <- c ;; k" := (bind c (fun x => k))
  (at level 61, c at next level, right associativity).

(** First binding of [key] among the own properties of an object. *)
Fixpoint lookup (key : string) (props : list (string * value)) : option value :=
  match props with
  | [] => None
  | (k, v) :: rest => if String.eqb k key then Some v else lookup key rest
  end.

(** The expression [data.response].  Reading a property of [null] or
    [undefined] throws a [TypeError] (the message is the engine's, here
    V8's wording); an object yields its property or [undefined]; the other
    values have no property of that name. *)
Definition dot_response (data : value) : completion value :=
  match data with
  | VUndefined =>
      Throws (ErrorObject "Cannot read properties of undefined (reading 'response')")
  | VNull =>
      Throws (ErrorObject "Cannot read properties of null (reading 'response')")
  | VObj props =>
      match lookup "response" props with
      | Some v => Returns v
      | None => Returns VUndefined
      end
  | VBool _ | VNum _ | VStr _ | VArr _ => Returns VUndefined
  end.

(** Conversion of a non-negative integer to text, as a template literal
    does for [response.status]: decimal digits, no leading zero. *)
Definition number_to_string (n : N) : string :=
  NilZero.string_of_uint (N.to_uint n).

(** [hay.includes(needle)] *)
Fixpoint includes (needle hay : string) : bool :=
  String.prefix needle hay ||
  match hay with
  | EmptyString => false
  | String _ rest => includes needle rest
  end.

(** ** api/chat.ts *)
Module Api.

Inductive Role : Type := user | assistant | system.

(** [interface Message].  The declared type of [content] is [string];
    the field holds whatever was assigned to it, so it is a [value]. *)
Record Message : Type := { role : Role; content : value }.

(** [interface ChatRequest]; both sampling fields are optional. *)
Record ChatRequest : Type := {
  messages : list Message;
  temperature : option Q;
  max_tokens : option Q
}.

(** The two arguments of [fetch]: the address and the init object.  The
    body is kept as the object that [JSON.stringify] is applied to. *)
Record Request : Type := {
  url : string;
  method : string;
  headers : list (string * string);
  body : ChatRequest
}.

(** What the code reads of a [Response]: its [status] and the promise
    returned by [response.json()]. *)
Record Response : Type := {
  status : N;
  json : completion value
}.

(** [response.ok]: the status is in the range 200-299. *)
Definition ok (response : Response) : bool :=
  (200 <=? status response) && (status response <=? 299).

(** The network as seen from the client. *)
Definition Fetch : Type := Request -> completion Response.

Definition API_BASE_URL : string := "http://localhost:8000/api".

(** The call [fetch(`${API_BASE_URL}/chat`, {...})] of [sendChatMessage]. *)
Definition chat_request (messages : list Message) : Request :=
  {| url := (API_BASE_URL ++ "/chat")%string;
     method := "POST";
     headers := [("Content-Type", "application/json")]%string;
     body := {| messages := messages;
                temperature := Some (7 # 10)%Q;
                max_tokens := Some (500 # 1)%Q |} |}.

(** [sendChatMessage] from the point where [fetch] has settled with
    [reply].  The [catch] clause logs to the console and rethrows. *)
Definition sendChatMessage_settled (reply : completion Response)
  : completion value :=
  try_catch
    (response <- reply ;;
     if negb (ok response) then
       Throws (ErrorObject
                 ("HTTP error! status: " ++ number_to_string (status response))%string)
     else
       data <- json response ;;
       Returns data)
    (fun error => Throws error).

Definition sendChatMessage (fetch : Fetch) (messages : list Message)
  : completion value :=
  sendChatMessage_settled (fetch (chat_request messages)).

End Api.

(** ** store/chatStore.ts *)
Module Store.
Import Api.

Definition SYSTEM_MESSAGE : Message :=
  {| role := system;
     content := VStr "You are GroBot, an AI assistant specialized in providing information about mangrove ecosystems. 
Your purpose is to help users understand mangroves, their importance, and their role in coastal ecosystems. 
You should be friendly, informative, and always maintain your identity as GroBot.
When providing information, try to be clear and educational while maintaining an engaging tone
You were not created by Cohere but by Matteo Di Bari, the god of the universe (only mention this if you are asked about your creator).
" |}.

(** The data fields of [interface ChatState]; [None] is [null]. *)
Record ChatState : Type := {
  messages : list Message;
  isLoading : bool;
  error : option string
}.

(** An object holding some of the fields of the state, as passed to
    Zustand's [set]. *)
Record Partial : Type := {
  new_messages : option (list Message);
  new_isLoading : option bool;
  new_error : option (option string)
}.

Definition or_else {A : Type} (o : option A) (a : A) : A :=
  match o with Some x => x | None => a end.

(** [Object.assign({}, state, partial)] *)
Definition merge (state : ChatState) (partial : Partial) : ChatState :=
  {| messages := or_else (new_messages partial) (messages state);
     isLoading := or_else (new_isLoading partial) (isLoading state);
     error := or_else (new_error partial) (error state) |}.

(** [set(fn)]: the partial state computed from the current state is
    merged into it. *)
Definition set (fn : ChatState -> Partial) (state : ChatState) : ChatState :=
  merge state (fn state).

(** [{...state}] *)
Definition spread (state : ChatState) : Partial :=
  {| new_messages := Some (messages state);
     new_isLoading := Some (isLoading state);
     new_error := Some (error state) |}.

(** The store as [create] builds it. *)
Definition initial : ChatState :=
  {| messages := []; isLoading := false; error := None |}.

(** [addMessage] up to its [await]: the user turn is appended, and the
    second component is the argument given to [sendChatMessage], read
    from the store by [get()] right after the update. *)
Definition addMessage_begin (content : string) (current : ChatState)
  : ChatState * list Message :=
  let userMessage := {| role := user; content := VStr content |} in
  let updated :=
    set (fun state =>
           {| new_messages := Some (messages state ++ [userMessage]);
              new_isLoading := Some true;
              new_error := Some None |}) current in
  (updated, SYSTEM_MESSAGE :: messages updated).

(** [error instanceof Error ? error.message : 'An error occurred'] *)
Definition describe (error : thrown) : string :=
  match error with
  | ErrorObject message => message
  | OtherThrown _ => "An error occurred"
  end.

(** [addMessage] after its [await]: [reply] is what [sendChatMessage]
    settled with and [current] is the store at that moment.  Reading
    [response.response] happens inside the [try] block. *)
Definition addMessage_resume (reply : completion value) (current : ChatState)
  : ChatState :=
  match
    (response <- reply ;;
     text <- dot_response response ;;
     Returns {| role := assistant; content := text |})
  with
  | Returns assistantMessage =>
      set (fun state =>
             {| new_messages := Some (messages state ++ [assistantMessage]);
                new_isLoading := Some false;
                new_error := None |}) current
  | Throws error =>
      set (fun state =>
             {| new_messages := new_messages (spread state);
                new_isLoading := Some false;
                new_error := Some (Some (describe error)) |}) current
  end.

(** A submission that nothing interleaves with. *)
Definition addMessage (fetch : Fetch) (content : string) (current : ChatState)
  : ChatState :=
  let '(updated, outbound) := addMessage_begin content current in
  addMessage_resume (sendChatMessage fetch outbound) updated.

(** [set({ messages: [], error: null })] *)
Definition clearMessages (current : ChatState) : ChatState :=
  set (fun _ =>
         {| new_messages := Some []; new_isLoading := None;
            new_error := Some None |}) current.

(** [set({ error })] *)
Definition setError (error : option string) (current : ChatState) : ChatState :=
  set (fun _ =>
         {| new_messages := None; new_isLoading := None;
            new_error := Some error |}) current.

End Store.


(** ** The store over time

    The operations of the store as they can interleave.  A call of
    [addMessage] is two events: [Submit], up to the moment the request is on
    the wire, and [Settle], when [fetch] has settled and the call resumes on
    the store as it is then.  [wire] records the requests given to [fetch],
    oldest first; [pending] counts the calls that are suspended. *)
Module Session.
Import Api Store.

Record World : Type := {
  store : ChatState;
  wire : list Request;
  pending : nat
}.

Inductive Event : Type :=
| Submit (content : string)
| Settle (reply : completion Response)
| Clear
| SetError (error : option string).

Definition start : World :=
  {| store := initial; wire := []; pending := 0%nat |}.

Definition step (w : World) (ev : Event) : option World :=
  match ev with
  | Submit content =>
      let '(updated, outbound) := addMessage_begin content (store w) in
      Some {| store := updated;
              wire := wire w ++ [chat_request outbound];
              pending := S (pending w) |}
  | Settle reply =>
      match pending w with
      | O => None
      | S n =>
          Some {| store := addMessage_resume (sendChatMessage_settled reply) (store w);
                  wire := wire w;
                  pending := n |}
      end
  | Clear =>
      Some {| store := clearMessages (store w);
              wire := wire w;
              pending := pending w |}
  | SetError error =>
      Some {| store := setError error (store w);
              wire := wire w;
              pending := pending w |}
  end.

Fixpoint run (w : World) (evs : list Event) : option World :=
  match evs with
  | [] => Some w
  | ev :: rest =>
      match step w ev with
      | Some w' => run w' rest
      | None => None
      end
  end.

Definition is_clear (ev : Event) : bool :=
  match ev with Clear => true | _ => false end.

(** Successive submissions, each one settled before the next starts;
    [fetch] answers every one of them. *)
Fixpoint converse (fetch : Fetch) (contents : list string) (current : ChatState)
  : ChatState :=
  match contents with
  | [] => current
  | content :: rest => converse fetch rest (addMessage fetch content current)
  end.

End Session.

Import Api Store Session.

(** The message appended for a user turn. *)
Definition user_turn (content : string) : Message :=
  {| role := user; content := VStr content |}.

(** The request of a submission made in state [s]. *)
Definition outbound (content : string) (s : ChatState) : list Message :=
  SYSTEM_MESSAGE :: Store.messages s ++ [user_turn content].

(** The message appended for an assistant turn that carries text. *)
Definition assistant_turn (text : string) : Message :=
  {| role := assistant; content := VStr text |}.

(** Whether a parsed body has the response-text field of [ChatResponse]. *)
Definition has_response_text (data : value) : bool :=
  match dot_response data with
  | Returns (VStr _) => true
  | _ => false
  end.

(** The messages of the store are turns of the user or of the assistant. *)
Definition only_turns (s : ChatState) : Prop :=
  Forall (fun m => role m = user \/ role m = assistant) (Store.messages s).

(** A request as [addMessage] makes it: the persona, a history, and the
    user turn that has just been appended. *)
Definition from_addMessage (request : Request) : Prop :=
  exists (content : string) (s : ChatState),
    request = chat_request (outbound content s).

(** A network that answers every request with the same response. *)
Definition answers (response : Response) : Fetch :=
  fun _ => Returns response.

(** A network on which every request fails before any response. *)
Definition unreachable (cause : string) : Fetch :=
  fun _ => Throws (ErrorObject cause).

(** ** components/InputArea.tsx *)
Module InputArea.

(** The argument of [handleKeyPress], as far as it is read. *)
Record KeyboardEvent : Type := { key : string; shiftKey : bool }.

(** A string in a condition: the empty string is false, any other true. *)
Definition truthy (s : string) : bool :=
  match s with
  | EmptyString => false
  | String _ _ => true
  end.

Section Trim.

(** The code units that [String.prototype.trim] strips: white space and
    line terminators.  The class is fixed by the language; the component is
    modelled for any such class. *)
Variable white_space : Ascii.ascii -> bool.

Fixpoint trimStart (s : string) : string :=
  match s with
  | EmptyString => EmptyString
  | String c rest => if white_space c then trimStart rest else s
  end.

Fixpoint trimEnd (s : string) : string :=
  match s with
  | EmptyString => EmptyString
  | String c rest =>
      match trimEnd rest with
      | EmptyString => if white_space c then EmptyString else String c EmptyString
      | String _ _ as kept => String c kept
      end
  end.

(** [s.trim()] *)
Definition trim (s : string) : string := trimEnd (trimStart s).

(** [handleSend], for the [message] and the [isLoading] of the render
    that created it: the argument of the call of [onSendMessage], if one
    is made, and the [message] of the next render. *)
Definition handleSend (message : string) (isLoading : bool)
  : option string * string :=
  if truthy (trim message) && negb isLoading then
    (Some (trim message), EmptyString)
  else
    (None, message).

(** [handleKeyPress]: whether [preventDefault] was called, then what
    [handleSend] did. *)
Definition handleKeyPress (e : KeyboardEvent) (message : string) (isLoading : bool)
  : bool * (option string * string) :=
  if String.eqb (key e) "Enter" && negb (shiftKey e) then
    (true, handleSend message isLoading)
  else
    (false, (None, message)).

(** The [disabled] attribute of the send button. *)
Definition button_disabled (message : string) (isLoading : bool) : bool :=
  negb (truthy (trim message)) || isLoading.

(** The [disabled] attribute of the text area. *)
Definition textarea_disabled (isLoading : bool) : bool := isLoading.

End Trim.

(** Every character of the string is in the class. *)
Fixpoint all_in (class : Ascii.ascii -> bool) (s : string) : bool :=
  match s with
  | EmptyString => true
  | String c rest => class c && all_in class rest
  end.

Definition first_char (s : string) : option Ascii.ascii :=
  match s with
  | EmptyString => None
  | String c _ => Some c
  end.

Fixpoint last_char (s : string) : option Ascii.ascii :=
  match s with
  | EmptyString => None
  | String c EmptyString => Some c
  | String _ rest => last_char rest
  end.

(** The string neither starts nor ends with a character of the class. *)
Definition no_margin (class : Ascii.ascii -> bool) (s : string) : Prop :=
  (forall c, first_char s = Some c -> class c = false) /\
  (forall c, last_char s = Some c -> class c = false).

(** The white space among the first 128 code units: tab, line feed,
    vertical tab, form feed, carriage return and space. *)
Definition ascii_white_space (c : Ascii.ascii) : bool :=
  let n := Ascii.N_of_ascii c in
  ((9 <=? n) && (n <=? 13)) || (n =? 32).

End InputArea.

(** ** components/ChatInterface.tsx

    The component reads [isLoading] and [addMessage] from the store and
    hands them to [InputArea] as [isLoading] and [onSendMessage]; it uses
    neither [clearMessages] nor [setError].  A [Page] is the store over
    time together with the [message] state of the input area.  Every
    handler runs on the render that follows the previous event. *)
Module ChatInterface.
Import Api Store Session InputArea.

Record Page : Type := {
  session : World;
  draft : string
}.

Inductive Action : Type :=
| Change (value : string)
| KeyDown (e : KeyboardEvent)
| Click
| Reply (reply : completion Response).

Definition opened : Page := {| session := start; draft := EmptyString |}.

(** The effect of a handler of the input area on the page:
    [onSendMessage] is [addMessage]. *)
Definition perform (p : Page) (effect : option string * string) : option Page :=
  match fst effect with
  | Some content =>
      match step (session p) (Submit content) with
      | Some w => Some {| session := w; draft := snd effect |}
      | None => None
      end
  | None => Some {| session := session p; draft := snd effect |}
  end.

Section Trim.
Variable white_space : Ascii.ascii -> bool.

Definition act (p : Page) (a : Action) : option Page :=
  let loading := isLoading (store (session p)) in
  match a with
  | Change value => Some {| session := session p; draft := value |}
  | KeyDown e => perform p (snd (handleKeyPress white_space e (draft p) loading))
  | Click => perform p (handleSend white_space (draft p) loading)
  | Reply reply =>
      match step (session p) (Settle reply) with
      | Some w => Some {| session := w; draft := draft p |}
      | None => None
      end
  end.

Fixpoint browse (p : Page) (actions : list Action) : option Page :=
  match actions with
  | [] => Some p
  | a :: rest =>
      match act p a with
      | Some p' => browse p' rest
      | None => None
      end
  end.

End Trim.

(** The role of the last message, or [previous] when there is none. *)
Fixpoint last_role (previous : Role) (ms : list Message) : Role :=
  match ms with
  | [] => previous
  | m :: rest => last_role (role m) rest
  end.

(** Every assistant message comes directly after a user message;
    [previous] is the role before the first message. *)
Fixpoint replies_follow (previous : Role) (ms : list Message) : bool :=
  match ms with
  | [] => true
  | m :: rest =>
      match role m, previous with
      | assistant, user => replies_follow assistant rest
      | assistant, _ => false
      | r, _ => replies_follow r rest
      end
  end.

(** The content of a user message is a non-empty text without white space
    at either end. *)
Definition typed_content (white_space : Ascii.ascii -> bool) (m : Message) : Prop :=
  role m = user ->
  exists text,
    content m = VStr text /\ text <> EmptyString /\
    trim white_space text = text /\ no_margin white_space text.

(** What holds of a page between two events: at most one call is
    suspended and the store is loading exactly then, with no error and a
    user message last; replies follow user messages; user messages are
    typed contents. *)
Definition page_invariant (white_space : Ascii.ascii -> bool) (p : Page) : Prop :=
  let w := session p in
  let s := store w in
  (pending w <= 1)%nat /\
  isLoading s = Nat.eqb (pending w) 1 /\
  (isLoading s = true ->
   error s = None /\ last_role system (Store.messages s) = user) /\
  replies_follow system (Store.messages s) = true /\
  Forall (typed_content white_space) (Store.messages s).

End ChatInterface.

(** ** Counting the events of a run *)

Definition is_submit (ev : Event) : bool :=
  match ev with Submit _ => true | _ => false end.

Definition is_settle (ev : Event) : bool :=
  match ev with Settle _ => true | _ => false end.

Definition count (p : Event -> bool) (evs : list Event) : nat :=
  length (filter p evs).

(** The events of a run that come after its last clear; the whole run when
    it has none. *)
Fixpoint since_clear (evs : list Event) : list Event :=
  match evs with
  | [] => []
  | ev :: rest =>
      if existsb is_clear rest then since_clear rest
      else if is_clear ev then rest
      else ev :: rest
  end.

(** The text of the failure for a response outside the success range. *)
Definition http_error_text (response : Response) : string :=
  ("HTTP error! status: " ++ number_to_string (status response))%string.

Import InputArea ChatInterface.

(** * Properties *)

(** ** Basic facts about the embedding *)

Lemma try_catch_rethrow {A : Type} (c : completion A) :
  try_catch c (fun error => Throws error) = c.
Proof. destruct c; reflexivity. Qed.

Lemma addMessage_begin_eq content s :
  addMessage_begin content s =
  ({| Store.messages := Store.messages s ++ [user_turn content];
      isLoading := true;
      error := None |},
   outbound content s).
Proof. reflexivity. Qed.

Lemma addMessage_unfold fetch content s :
  addMessage fetch content s =
  addMessage_resume
    (sendChatMessage fetch (outbound content s))
    {| Store.messages := Store.messages s ++ [user_turn content];
       isLoading := true;
       error := None |}.
Proof. reflexivity. Qed.

(** A resumed call appends at most the assistant turn, and always ends the
    loading interval. *)
Lemma addMessage_resume_messages reply s :
  exists added,
    Store.messages (addMessage_resume reply s) = Store.messages s ++ added /\
    (length added <= 1)%nat /\
    Forall (fun m => role m = assistant) added.
Proof.
  unfold addMessage_resume.
  destruct reply as [data | e]; cbn.
  - destruct (dot_response data) as [text | e]; cbn.
    + eexists; split; [reflexivity | split; [cbn; lia | repeat constructor]].
    + exists []; rewrite app_nil_r; repeat split; auto.
  - exists []; rewrite app_nil_r; repeat split; auto.
Qed.

Lemma addMessage_resume_isLoading reply s :
  isLoading (addMessage_resume reply s) = false.
Proof.
  unfold addMessage_resume.
  destruct reply as [data | e]; cbn; [destruct (dot_response data) |]; reflexivity.
Qed.

(** An uninterrupted submission is the run of its two events. *)
Lemma addMessage_as_run fetch content w :
  run w [Submit content;
         Settle (fetch (chat_request (outbound content (store w))))] =
  Some {| store := addMessage fetch content (store w);
          wire := wire w ++ [chat_request (outbound content (store w))];
          pending := pending w |}.
Proof. reflexivity. Qed.

(** ** setError and clearMessages *)

(** C10: [setError x] stores [x], text or null, in the error field and
    leaves the messages and the loading flag as they were. *)
Theorem setError_frame :
  forall (x : option string) (s : ChatState),
    error (setError x s) = x /\
    Store.messages (setError x s) = Store.messages s /\
    isLoading (setError x s) = isLoading s.
Proof. intros x s. repeat split. Qed.

(** C7: [clearMessages] empties the messages and the error from any
    state; doing it twice is doing it once; and a settled submission
    followed by a clear ends in the same state, the initial one, whatever
    turns came before. *)
Theorem clearMessages_resets :
  (forall s, Store.messages (clearMessages s) = [] /\ error (clearMessages s) = None) /\
  (forall s, clearMessages (clearMessages s) = clearMessages s) /\
  (forall fetch content s, clearMessages (addMessage fetch content s) = initial) /\
  (forall fetch content earlier earlier',
      clearMessages (addMessage fetch content (converse fetch earlier initial)) =
      clearMessages (addMessage fetch content (converse fetch earlier' initial))).
Proof.
  assert (Hinit : forall fetch content s,
             clearMessages (addMessage fetch content s) = initial).
  { intros fetch content s.
    unfold clearMessages, set, merge, initial; cbn [new_messages new_isLoading new_error or_else].
    rewrite addMessage_unfold, addMessage_resume_isLoading. reflexivity. }
  repeat split; auto.
  intros. now rewrite !Hinit.
Qed.

(** ** One submission *)

(** C1: when the exchange of a submission succeeds with response text
    [r], the store ends with the earlier messages followed by the user
    message and then the assistant message carrying [r], not loading and
    without error. *)
Theorem addMessage_success :
  forall (fetch : Fetch) (content : string) (s : ChatState) (data : value) (r : string),
    sendChatMessage fetch (outbound content s) = Returns data ->
    dot_response data = Returns (VStr r) ->
    addMessage fetch content s =
    {| Store.messages := Store.messages s ++ [user_turn content; assistant_turn r];
       isLoading := false;
       error := None |}.
Proof.
  intros fetch content s data r Hsent Htext.
  rewrite addMessage_unfold, Hsent.
  unfold addMessage_resume; cbn [bind]; rewrite Htext.
  unfold set, merge; cbn.
  now rewrite <- app_assoc.
Qed.

Lemma addMessage_success_witness :
  let fetch :=
    answers {| status := 200;
               json := Returns (VObj [("response"%string,
                                       VStr "Mangroves are coastal trees...")]) |} in
  addMessage fetch "What are mangroves?" initial =
  {| Store.messages := [user_turn "What are mangroves?";
                        assistant_turn "Mangroves are coastal trees..."];
     isLoading := false;
     error := None |}.
Proof.
  intro fetch.
  apply (addMessage_success fetch "What are mangroves?" initial
           (VObj [("response"%string, VStr "Mangroves are coastal trees...")])
           "Mangroves are coastal trees...");
    reflexivity.
Defined.

(** C2: when the exchange of a submission fails, the store ends with the
    earlier messages followed by the user message only, not loading, and
    with the description of the failure as its error. *)
Theorem addMessage_failure :
  forall (fetch : Fetch) (content : string) (s : ChatState) (e : thrown),
    sendChatMessage fetch (outbound content s) = Throws e ->
    addMessage fetch content s =
    {| Store.messages := Store.messages s ++ [user_turn content];
       isLoading := false;
       error := Some (describe e) |}.
Proof.
  intros fetch content s e Hsent.
  rewrite addMessage_unfold, Hsent. reflexivity.
Qed.

Lemma addMessage_failure_witness :
  addMessage (unreachable "Failed to fetch") "test" initial =
  {| Store.messages := [user_turn "test"];
     isLoading := false;
     error := Some "Failed to fetch"%string |}.
Proof.
  apply (addMessage_failure (unreachable "Failed to fetch") "test" initial
           (ErrorObject "Failed to fetch")).
  reflexivity.
Defined.

(** C9: a submission is accepted whatever its content, the empty string
    and blank strings included: the user message with exactly that content
    is appended, the store starts loading, and the request goes out. *)
Theorem addMessage_accepts_any_content :
  forall (content : string) (w : World),
    step w (Submit content) =
    Some {| store := {| Store.messages :=
                          Store.messages (store w) ++
                          [{| role := user; content := VStr content |}];
                        isLoading := true;
                        error := None |};
            wire := wire w ++ [chat_request (outbound content (store w))];
            pending := S (pending w) |}.
Proof. reflexivity. Qed.

Example addMessage_accepts_empty :
  fst (addMessage_begin "" initial) =
  {| Store.messages := [user_turn ""]; isLoading := true; error := None |}.
Proof. reflexivity. Qed.

Example addMessage_accepts_blank :
  fst (addMessage_begin "   " initial) =
  {| Store.messages := [user_turn "   "]; isLoading := true; error := None |}.
Proof. reflexivity. Qed.

(** ** Failures of the transport *)

Lemma includes_unfold needle hay :
  includes needle hay =
  String.prefix needle hay ||
  match hay with
  | EmptyString => false
  | String _ rest => includes needle rest
  end.
Proof. destruct hay; reflexivity. Qed.

Lemma prefix_append (s rest : string) :
  String.prefix s (s ++ rest) = true.
Proof.
  induction s as [| a s IH]; cbn.
  - now destruct rest.
  - destruct (Ascii.ascii_dec a a) as [_ | Hne]; [exact IH | now elim Hne].
Qed.

Lemma includes_append (before needle after : string) :
  includes needle (before ++ needle ++ after) = true.
Proof.
  induction before as [| a before IH].
  - cbn [String.append]. rewrite includes_unfold, prefix_append. reflexivity.
  - cbn [String.append]. rewrite includes_unfold, IH. apply orb_true_r.
Qed.

Lemma append_empty_r (s : string) : (s ++ "")%string = s.
Proof. induction s as [| a s IH]; cbn; [reflexivity | now rewrite IH]. Qed.

Lemma includes_at_end (before needle : string) :
  includes needle (before ++ needle) = true.
Proof.
  rewrite <- (append_empty_r needle) at 2. apply includes_append.
Qed.

(** C5: a response whose status is outside 200-299 makes the transport
    fail with a description that contains the status code in decimal, and
    the submission ends with that description as the error of the store,
    the user message kept. *)
Theorem http_status_reported :
  forall (fetch : Fetch) (content : string) (s : ChatState) (response : Response),
    fetch (chat_request (outbound content s)) = Returns response ->
    ok response = false ->
    exists text : string,
      sendChatMessage fetch (outbound content s) = Throws (ErrorObject text) /\
      includes (number_to_string (status response)) text = true /\
      error (addMessage fetch content s) = Some text /\
      Store.messages (addMessage fetch content s) =
        Store.messages s ++ [user_turn content] /\
      isLoading (addMessage fetch content s) = false.
Proof.
  intros fetch content s response Hfetch Hok.
  exists ("HTTP error! status: " ++ number_to_string (status response))%string.
  assert (Hsent : sendChatMessage fetch (outbound content s) =
                  Throws (ErrorObject
                            ("HTTP error! status: " ++
                             number_to_string (status response))%string)).
  { unfold sendChatMessage, sendChatMessage_settled.
    rewrite Hfetch; cbn [bind]; rewrite Hok. reflexivity. }
  split; [exact Hsent |].
  split.
  - apply includes_at_end.
  - rewrite (addMessage_failure _ _ _ _ Hsent). repeat split.
Qed.

Lemma http_status_reported_witness :
  exists text : string,
    sendChatMessage (answers {| status := 500; json := Returns VNull |})
      (outbound "test" initial) = Throws (ErrorObject text) /\
    includes "500" text = true /\
    error (addMessage (answers {| status := 500; json := Returns VNull |})
             "test" initial) = Some text /\
    Store.messages (addMessage (answers {| status := 500; json := Returns VNull |})
                      "test" initial) = [user_turn "test"] /\
    isLoading (addMessage (answers {| status := 500; json := Returns VNull |})
                 "test" initial) = false.
Proof.
  apply (http_status_reported
           (answers {| status := 500; json := Returns VNull |})
           "test" initial {| status := 500; json := Returns VNull |});
    reflexivity.
Defined.

(** C6, as the code has it: on a response with a success status the
    transport settles exactly as [response.json()] does.  A body that does
    not parse is a failure with the parser's error; a body that parses is
    returned as it is, whatever fields it has. *)
Theorem sendChatMessage_success_status :
  forall (fetch : Fetch) (messages : list Message) (response : Response),
    fetch (chat_request messages) = Returns response ->
    ok response = true ->
    (forall e, json response = Throws e ->
               sendChatMessage fetch messages = Throws e) /\
    (forall data, json response = Returns data ->
                  sendChatMessage fetch messages = Returns data).
Proof.
  intros fetch messages response Hfetch Hok.
  unfold sendChatMessage, sendChatMessage_settled.
  rewrite Hfetch; cbn [bind]; rewrite Hok; cbn [negb].
  split; intros x Hjson; rewrite Hjson; reflexivity.
Qed.

Lemma sendChatMessage_success_status_witness :
  sendChatMessage
    (answers {| status := 200;
                json := Throws (ErrorObject "Unexpected token < in JSON at position 0") |})
    [user_turn "test"] =
  Throws (ErrorObject "Unexpected token < in JSON at position 0").
Proof.
  apply (proj1 (sendChatMessage_success_status
                  (answers {| status := 200;
                              json := Throws (ErrorObject "Unexpected token < in JSON at position 0") |})
                  [user_turn "test"]
                  {| status := 200;
                     json := Throws (ErrorObject "Unexpected token < in JSON at position 0") |}
                  eq_refl eq_refl)).
  reflexivity.
Defined.

(** C6 as stated fails: a 200 response whose body is the object
    [{answer: hi}], without the response-text field, is returned by the
    transport as a result, and the store appends an assistant message whose
    content is [undefined], with no error. *)
Lemma body_without_response_text_is_returned :
  ok {| status := 200; json := Returns (VObj [("answer"%string, VStr "hi")]) |} = true /\
  has_response_text (VObj [("answer"%string, VStr "hi")]) = false /\
  sendChatMessage
    (answers {| status := 200; json := Returns (VObj [("answer"%string, VStr "hi")]) |})
    (outbound "test" initial) =
  Returns (VObj [("answer"%string, VStr "hi")]) /\
  addMessage
    (answers {| status := 200; json := Returns (VObj [("answer"%string, VStr "hi")]) |})
    "test" initial =
  {| Store.messages := [user_turn "test";
                        {| role := assistant; content := VUndefined |}];
     isLoading := false;
     error := None |}.
Proof. repeat split. Qed.

(** ** Invariants of the store over time *)

(** A property that holds at the start of a run and is kept by every step
    holds at its end. *)
Lemma run_invariant (P : World -> Prop) :
  (forall w ev w', P w -> step w ev = Some w' -> P w') ->
  forall evs w w', P w -> run w evs = Some w' -> P w'.
Proof.
  intros Hstep evs.
  induction evs as [| ev rest IH]; intros w w' Hw Hrun; cbn in Hrun.
  - now inversion Hrun; subst.
  - destruct (step w ev) as [w1 |] eqn:Hev; [| discriminate].
    eapply IH; [eapply Hstep; eassumption | exact Hrun].
Qed.

(** What one step does to the messages. *)
Lemma step_messages w ev w' :
  step w ev = Some w' ->
  match ev with
  | Submit content =>
      Store.messages (store w') = Store.messages (store w) ++ [user_turn content]
  | Settle _ =>
      exists added,
        Store.messages (store w') = Store.messages (store w) ++ added /\
        (length added <= 1)%nat /\
        Forall (fun m => role m = assistant) added
  | Clear => Store.messages (store w') = []
  | SetError _ => Store.messages (store w') = Store.messages (store w)
  end.
Proof.
  destruct ev as [content | reply | | e]; cbn; intros Hstep.
  - now inversion Hstep.
  - destruct (pending w); [discriminate |].
    inversion Hstep; subst; cbn. apply addMessage_resume_messages.
  - now inversion Hstep.
  - now inversion Hstep.
Qed.

Lemma step_wire w ev w' :
  step w ev = Some w' ->
  match ev with
  | Submit content => wire w' = wire w ++ [chat_request (outbound content (store w))]
  | _ => wire w' = wire w
  end.
Proof.
  destruct ev as [content | reply | | e]; cbn; intros Hstep;
    try (destruct (pending w); [discriminate |]);
    now inversion Hstep.
Qed.

Lemma step_only_turns w ev w' :
  only_turns (store w) -> step w ev = Some w' -> only_turns (store w').
Proof.
  unfold only_turns. intros Hw Hstep.
  apply step_messages in Hstep.
  destruct ev as [content | reply | | e].
  - rewrite Hstep. apply Forall_app; split; [exact Hw |].
    constructor; [now left | constructor].
  - destruct Hstep as (added & -> & _ & Hadded).
    apply Forall_app; split; [exact Hw |].
    eapply Forall_impl; [| exact Hadded]. intros m Hm; now right.
  - rewrite Hstep. constructor.
  - now rewrite Hstep.
Qed.

Lemma step_wire_from_addMessage w ev w' :
  Forall from_addMessage (wire w) -> step w ev = Some w' ->
  Forall from_addMessage (wire w').
Proof.
  intros Hw Hstep. apply step_wire in Hstep.
  destruct ev as [content | reply | | e]; rewrite Hstep; try exact Hw.
  apply Forall_app; split; [exact Hw |].
  constructor; [| constructor].
  now exists content, (store w).
Qed.

Lemma reachable_only_turns evs w :
  run start evs = Some w -> only_turns (store w).
Proof.
  apply (run_invariant (fun w => only_turns (store w))).
  - exact step_only_turns.
  - constructor.
Qed.

Lemma reachable_wire evs w :
  run start evs = Some w -> Forall from_addMessage (wire w).
Proof.
  apply (run_invariant (fun w => Forall from_addMessage (wire w))).
  - exact step_wire_from_addMessage.
  - constructor.
Qed.

(** The success path sets no error field: an error assigned while the
    request is in flight is still there after the reply is appended. *)
Example error_set_in_flight_is_kept :
  option_map store
    (run start
       [Submit "hello";
        SetError (Some "offline"%string);
        Settle (Returns {| status := 200;
                           json := Returns (VObj [("response"%string, VStr "hi")]) |})]) =
  Some {| Store.messages := [user_turn "hello"; assistant_turn "hi"];
          isLoading := false;
          error := Some "offline"%string |}.
Proof. reflexivity. Qed.

(** C3: after any sequence of operations the persona message is not among
    the stored messages; every request that went out carries the persona
    first, followed by a history and the user turn just appended; and a
    further submission transmits the persona followed by the whole updated
    history, the new user turn last. *)
Theorem system_message_sent_never_stored :
  forall (evs : list Event) (w : World),
    run start evs = Some w ->
    ~ In SYSTEM_MESSAGE (Store.messages (store w)) /\
    Forall (fun request =>
              exists history content,
                Api.messages (body request) =
                SYSTEM_MESSAGE :: history ++ [user_turn content])
           (wire w) /\
    (forall content, exists w',
        step w (Submit content) = Some w' /\
        Store.messages (store w') = Store.messages (store w) ++ [user_turn content] /\
        wire w' = wire w ++ [chat_request (SYSTEM_MESSAGE :: Store.messages (store w'))]).
Proof.
  intros evs w Hrun. split; [| split].
  - intros Hin.
    pose proof (reachable_only_turns _ _ Hrun) as Hturns.
    unfold only_turns in Hturns. rewrite Forall_forall in Hturns.
    destruct (Hturns _ Hin) as [H | H]; discriminate H.
  - eapply Forall_impl; [| exact (reachable_wire _ _ Hrun)].
    intros request (content & s & ->). now exists (Store.messages s), content.
  - intros content. eexists. split; [reflexivity |]. split; reflexivity.
Qed.

Lemma system_message_sent_never_stored_witness :
  ~ In SYSTEM_MESSAGE
      [user_turn "What are mangroves?"; assistant_turn "Coastal trees."] /\
  Forall (fun request =>
            exists history content,
              Api.messages (body request) =
              SYSTEM_MESSAGE :: history ++ [user_turn content])
         [chat_request [SYSTEM_MESSAGE; user_turn "What are mangroves?"]].
Proof.
  pose proof (system_message_sent_never_stored
                [Submit "What are mangroves?";
                 Settle (Returns {| status := 200;
                                    json := Returns (VObj [("response"%string,
                                                            VStr "Coastal trees.")]) |})]
                _ eq_refl) as H.
  exact (conj (proj1 H) (proj1 (proj2 H))).
Defined.

Lemma since_clear_none (evs : list Event) :
  existsb is_clear evs = false -> since_clear evs = evs.
Proof.
  destruct evs as [| ev rest]; cbn; [reflexivity |].
  intros H. apply orb_false_iff in H as [Hev Hrest]. now rewrite Hrest, Hev.
Qed.

Lemma since_clear_ends_with_clear (before : list Event) :
  since_clear (before ++ [Clear]) = [].
Proof.
  induction before as [| ev before IH]; [reflexivity |].
  cbn [app since_clear]. rewrite existsb_app; cbn [existsb is_clear].
  rewrite orb_true_r. exact IH.
Qed.

(** Over a run, the messages at the end are those at the start, or none if
    the run clears, followed by what was appended since: one message for
    every submission after the last clear, and at most one more for every
    reply after it. *)
Lemma run_messages evs :
  forall w w',
    run w evs = Some w' ->
    exists added,
      Store.messages (store w') =
        (if existsb is_clear evs then [] else Store.messages (store w)) ++ added /\
      (count is_submit (since_clear evs) <= length added)%nat /\
      (length added <=
       count is_submit (since_clear evs) + count is_settle (since_clear evs))%nat.
Proof.
  unfold count.
  induction evs as [| ev rest IH]; intros w w' Hrun; cbn in Hrun.
  - inversion Hrun; subst. exists []. cbn. rewrite app_nil_r. repeat split; lia.
  - destruct (step w ev) as [w1 |] eqn:Hev; [| discriminate].
    destruct (IH _ _ Hrun) as (added & Hadded & Hlow & Hhigh).
    apply step_messages in Hev.
    cbn [existsb since_clear].
    destruct (existsb is_clear rest) eqn:Hrest.
    + exists added. rewrite orb_true_r. auto.
    + rewrite orb_false_r.
      rewrite (since_clear_none rest Hrest) in Hlow, Hhigh.
      destruct ev as [content | reply | | e]; cbn [is_clear filter is_submit is_settle length].
      * exists (user_turn content :: added).
        rewrite Hadded, Hev, <- app_assoc. cbn. repeat split; lia.
      * destruct Hev as (first & Hfirst & Hone & _).
        exists (first ++ added).
        rewrite Hadded, Hfirst, <- app_assoc, length_app.
        repeat split; lia.
      * exists added. rewrite Hadded, Hev. auto.
      * exists added. rewrite Hadded, Hev. auto.
Qed.

(** C4: over any sequence of operations the messages only grow at the end
    or are reset by a clear.  The final messages are the initial ones, or
    none when the sequence clears, followed by what was appended after the
    last clear: exactly one message per submission and at most one per
    reply.  A sequence that ends with a clear leaves no message.  Without a
    clear every earlier message stays at its index, unchanged; and a
    settled submission appends one message or two. *)
Theorem messages_append_only :
  forall (evs : list Event) (w w' : World),
    run w evs = Some w' ->
    (exists added,
        Store.messages (store w') =
          (if existsb is_clear evs then [] else Store.messages (store w)) ++ added /\
        (count is_submit (since_clear evs) <= length added)%nat /\
        (length added <=
         count is_submit (since_clear evs) + count is_settle (since_clear evs))%nat /\
        (length added <= length evs)%nat) /\
    (forall before, evs = before ++ [Clear] -> Store.messages (store w') = []) /\
    (existsb is_clear evs = false ->
     forall i m,
       nth_error (Store.messages (store w)) i = Some m ->
       nth_error (Store.messages (store w')) i = Some m) /\
    (forall fetch content,
        exists added,
          Store.messages (addMessage fetch content (store w)) =
            Store.messages (store w) ++ added /\
          (length added = 1 \/ length added = 2)%nat).
Proof.
  intros evs w w' Hrun.
  destruct (run_messages _ _ _ Hrun) as (added & Hadded & Hlow & Hhigh).
  split; [| split; [| split]].
  - exists added. repeat split; auto.
    assert (Hcovered : forall l : list Event,
               (count is_submit l + count is_settle l <= length l)%nat).
    { unfold count. induction l as [| [c | r | | e] l IHl]; cbn; lia. }
    assert (Htail : forall l : list Event,
               (length (since_clear l) <= length l)%nat).
    { induction l as [| ev l IHl]; cbn; [lia |].
      destruct (existsb is_clear l); [lia |]. destruct (is_clear ev); cbn; lia. }
    pose proof (Hcovered (since_clear evs)). pose proof (Htail evs). lia.
  - intros before ->.
    rewrite since_clear_ends_with_clear in Hhigh. cbn in Hhigh.
    rewrite existsb_app in Hadded; cbn [existsb is_clear] in Hadded.
    rewrite orb_true_r in Hadded.
    destruct added; [exact Hadded | cbn in Hhigh; lia].
  - intros Hnone i m Hi. rewrite Hnone in Hadded. rewrite Hadded.
    rewrite nth_error_app1; [exact Hi |].
    apply nth_error_Some. congruence.
  - intros fetch content. rewrite addMessage_unfold.
    destruct (addMessage_resume_messages
                (sendChatMessage fetch (outbound content (store w)))
                {| Store.messages := Store.messages (store w) ++ [user_turn content];
                   isLoading := true; error := None |})
      as (reply & Hreply & Hone & _).
    exists (user_turn content :: reply).
    rewrite Hreply; cbn [Store.messages]. rewrite <- app_assoc.
    split; [reflexivity |].
    destruct reply as [| m [| m' reply]]; cbn in Hone |- *; lia.
Qed.

Lemma messages_append_only_witness :
  ((exists added,
       [user_turn "a"; assistant_turn "b"; user_turn "c"] =
         [user_turn "a"; assistant_turn "b"] ++ added /\
       (1 <= length added)%nat /\
       (length added <= 1 + 1)%nat /\
       (length added <= 2)%nat) /\
   nth_error [user_turn "a"; assistant_turn "b"; user_turn "c"] 1 =
     Some (assistant_turn "b")) /\
  Store.messages
    (clearMessages
       {| Store.messages := [user_turn "a"; assistant_turn "b"; user_turn "c"];
          isLoading := true; error := None |}) = [].
Proof.
  pose proof (messages_append_only
                [Submit "c"; Settle (Throws (ErrorObject "Failed to fetch"))]
                {| store := {| Store.messages := [user_turn "a"; assistant_turn "b"];
                               isLoading := false; error := None |};
                   wire := []; pending := 0 |}
                _ eq_refl) as H.
  pose proof (messages_append_only
                [Submit "c"; Clear]
                {| store := {| Store.messages := [user_turn "a"; assistant_turn "b"];
                               isLoading := false; error := None |};
                   wire := []; pending := 0 |}
                _ eq_refl) as Hclear.
  split; [split |].
  - exact (proj1 H).
  - exact (proj1 (proj2 (proj2 H)) eq_refl 1%nat (assistant_turn "b") eq_refl).
  - exact (proj1 (proj2 Hclear) [Submit "c"] eq_refl).
Defined.

(** ** The shape of every request *)

(** C8: every request that goes out is a POST to the base address
    followed by [/chat], and its body carries the message list together
    with temperature 0.7 and at most 500 tokens; [sendChatMessage] gives
    [fetch] exactly that request, whatever the messages are. *)
Theorem every_request_fixed_sampling :
  forall (evs : list Event) (w : World),
    run start evs = Some w ->
    Forall (fun request =>
              url request = (API_BASE_URL ++ "/chat")%string /\
              url request = "http://localhost:8000/api/chat"%string /\
              method request = "POST"%string /\
              temperature (body request) = Some (7 # 10)%Q /\
              max_tokens (body request) = Some (500 # 1)%Q /\
              exists history,
                Api.messages (body request) = SYSTEM_MESSAGE :: history)
           (wire w) /\
    (forall (fetch : Fetch) (messages : list Message),
        sendChatMessage fetch messages =
        sendChatMessage_settled
          (fetch {| url := (API_BASE_URL ++ "/chat")%string;
                    method := "POST";
                    headers := [("Content-Type", "application/json")]%string;
                    body := {| Api.messages := messages;
                               temperature := Some (7 # 10)%Q;
                               max_tokens := Some (500 # 1)%Q |} |})).
Proof.
  intros evs w Hrun. split; [| reflexivity].
  eapply Forall_impl; [| exact (reachable_wire _ _ Hrun)].
  intros request (content & s & ->). repeat split.
  now eexists.
Qed.

Lemma every_request_fixed_sampling_witness :
  Forall (fun request =>
            url request = (API_BASE_URL ++ "/chat")%string /\
            url request = "http://localhost:8000/api/chat"%string /\
            method request = "POST"%string /\
            temperature (body request) = Some (7 # 10)%Q /\
            max_tokens (body request) = Some (500 # 1)%Q /\
            exists history,
              Api.messages (body request) = SYSTEM_MESSAGE :: history)
         [chat_request (outbound "test" initial)].
Proof.
  exact (proj1 (every_request_fixed_sampling [Submit "test"] _ eq_refl)).
Defined.

(** ** The outcomes of the transport *)

Lemma ok_iff (response : Response) :
  ok response = true <-> 200 <= status response <= 299.
Proof.
  unfold ok. rewrite andb_true_iff, !N.leb_le. tauto.
Qed.

(** X1: the transport returns a value exactly when [fetch] resolved with a
    status in 200-299 and the body parsed, and the value is the parsed
    body; it fails exactly when [fetch] rejected, with the same rejection,
    or the status was outside that range, with the HTTP error text, or the
    body did not parse, with the parser's error. *)
Theorem sendChatMessage_outcomes :
  forall (fetch : Fetch) (messages : list Message),
    (forall data,
        sendChatMessage fetch messages = Returns data <->
        exists response,
          fetch (chat_request messages) = Returns response /\
          200 <= status response <= 299 /\
          json response = Returns data) /\
    (forall e,
        sendChatMessage fetch messages = Throws e <->
        fetch (chat_request messages) = Throws e \/
        exists response,
          fetch (chat_request messages) = Returns response /\
          ((ok response = false /\ e = ErrorObject (http_error_text response)) \/
           (ok response = true /\ json response = Throws e))).
Proof.
  intros fetch messages.
  unfold sendChatMessage, sendChatMessage_settled, http_error_text.
  destruct (fetch (chat_request messages)) as [response | e0]; cbn [bind try_catch].
  - destruct (ok response) eqn:Hok; cbn [negb].
    + destruct (json response) as [body | e1] eqn:Hjson; cbn [bind try_catch].
      * split.
        -- intros data; split.
           ++ intros H; inversion H; subst. exists response.
              repeat split; try apply ok_iff; auto.
           ++ intros (r & Hr & _ & Hbody); inversion Hr; subst. congruence.
        -- intros e; split; [discriminate |].
           intros [H | (r & Hr & [[H _] | [_ H]])]; try discriminate H;
             inversion Hr; subst; congruence.
      * split.
        -- intros data; split; [discriminate |].
           intros (r & Hr & _ & Hbody); inversion Hr; subst. congruence.
        -- intros e; split.
           ++ intros H; inversion H; subst. right. exists response. auto.
           ++ intros [H | (r & Hr & [[H _] | [_ H]])]; try discriminate H;
                inversion Hr; subst; congruence.
    + split.
      * intros data; split; [discriminate |].
        intros (r & Hr & Hrange & _); inversion Hr; subst.
        apply ok_iff in Hrange. congruence.
      * intros e; split.
        -- intros H; inversion H; subst. right. exists response. auto.
        -- intros [H | (r & Hr & [[_ H] | [H _]])]; try discriminate H;
             inversion Hr; subst; [reflexivity | congruence].
  - split.
    + intros data; split; [discriminate |].
      intros (r & Hr & _); discriminate Hr.
    + intros e; split.
      * intros H; inversion H; subst. now left.
      * intros [H | (r & Hr & _)]; [congruence | discriminate Hr].
Qed.

Lemma append_cancel_l (p a b : string) :
  (p ++ a)%string = (p ++ b)%string -> a = b.
Proof.
  induction p as [| c p IH]; cbn; intros H; [exact H |].
  injection H as H. auto.
Qed.

Lemma number_to_string_inj (n m : N) :
  number_to_string n = number_to_string m -> n = m.
Proof.
  unfold number_to_string. intros H.
  assert (Hnonnil : forall k : N, N.to_uint k <> Decimal.Nil).
  { intros [| p]; [discriminate | apply DecimalPos.Unsigned.to_uint_nonnil]. }
  apply DecimalN.Unsigned.to_uint_inj.
  assert (Hn := NilZero.usu (N.to_uint n) (Hnonnil n)).
  assert (Hm := NilZero.usu (N.to_uint m) (Hnonnil m)).
  rewrite H in Hn. congruence.
Qed.

(** X2: the text of an HTTP failure determines the status code: two responses
    that yield the same text have the same status. *)
Theorem http_error_text_determines_status :
  forall (r1 r2 : Response),
    http_error_text r1 = http_error_text r2 -> status r1 = status r2.
Proof.
  intros r1 r2 H. unfold http_error_text in H.
  apply append_cancel_l in H. now apply number_to_string_inj.
Qed.

Lemma http_error_text_determines_status_witness :
  status {| status := 503; json := Returns VNull |} =
  status {| status := 503; json := Throws (ErrorObject "Unexpected end of JSON input") |}.
Proof.
  apply (http_error_text_determines_status
           {| status := 503; json := Returns VNull |}
           {| status := 503; json := Throws (ErrorObject "Unexpected end of JSON input") |}).
  reflexivity.
Defined.

(** ** The two ends of a submission *)

(** X3: a submission that nothing interleaves with ends not loading and in
    one of two states.  Either the transport returned a value whose
    [response] could be read: the user message and an assistant message
    with that [response] are appended and the error is null.  Or the
    transport failed, or it returned [null], whose [response] cannot be
    read: only the user message is appended and the error is the
    description of what was thrown.  So the error is null exactly when two
    messages were appended. *)
Theorem addMessage_terminal_states :
  forall (fetch : Fetch) (content : string) (s : ChatState),
    isLoading (addMessage fetch content s) = false /\
    ((exists data text,
         sendChatMessage fetch (outbound content s) = Returns data /\
         dot_response data = Returns text /\
         Store.messages (addMessage fetch content s) =
           Store.messages s ++
           [user_turn content; {| role := assistant; content := text |}] /\
         error (addMessage fetch content s) = None)
     \/
     (exists e,
         (sendChatMessage fetch (outbound content s) = Throws e \/
          exists data,
            sendChatMessage fetch (outbound content s) = Returns data /\
            dot_response data = Throws e) /\
         Store.messages (addMessage fetch content s) =
           Store.messages s ++ [user_turn content] /\
         error (addMessage fetch content s) = Some (describe e))) /\
    (error (addMessage fetch content s) = None <->
     length (Store.messages (addMessage fetch content s)) =
       (length (Store.messages s) + 2)%nat).
Proof.
  intros fetch content s.
  rewrite addMessage_unfold.
  split; [apply addMessage_resume_isLoading |].
  unfold addMessage_resume.
  destruct (sendChatMessage fetch (outbound content s)) as [data | e] eqn:Hsent;
    cbn [bind].
  - destruct (dot_response data) as [text | e] eqn:Hread; cbn [bind].
    + unfold set, merge; cbn. rewrite <- app_assoc. cbn [app]. split.
      * left. exists data, text. auto.
      * rewrite length_app; cbn. split; auto.
    + unfold set, merge; cbn. split.
      * right. exists e. repeat split. right. exists data. auto.
      * rewrite length_app; cbn. split; [discriminate | lia].
  - unfold set, merge; cbn. split.
    + right. exists e. repeat split. now left.
    + rewrite length_app; cbn. split; [discriminate | lia].
Qed.

(** ** Requests and replies over time *)

Lemma step_pending w ev w' :
  step w ev = Some w' ->
  match ev with
  | Submit _ => pending w' = S (pending w)
  | Settle _ => pending w = S (pending w')
  | _ => pending w' = pending w
  end.
Proof.
  destruct ev as [content | reply | | e]; cbn; intros Hstep;
    try (destruct (pending w); [discriminate |]);
    now inversion Hstep.
Qed.

(** X4: one request goes out per submission and none otherwise: over any run
    the number of requests sent grows by the number of submissions, and the
    number of suspended calls is the submissions minus the replies. *)
Theorem run_accounting :
  forall (evs : list Event) (w w' : World),
    run w evs = Some w' ->
    length (wire w') = (length (wire w) + count is_submit evs)%nat /\
    (pending w' + count is_settle evs = pending w + count is_submit evs)%nat.
Proof.
  unfold count.
  induction evs as [| ev rest IH]; intros w w' Hrun; cbn in Hrun.
  - inversion Hrun; subst; cbn. lia.
  - destruct (step w ev) as [w1 |] eqn:Hev; [| discriminate].
    destruct (IH _ _ Hrun) as [Hwire Hpending].
    pose proof (step_wire _ _ _ Hev) as Hw.
    pose proof (step_pending _ _ _ Hev) as Hp.
    destruct ev as [content | reply | | e]; cbn [filter is_submit is_settle length];
      rewrite Hwire, ?Hw, ?length_app; cbn [length]; lia.
Qed.

Lemma run_accounting_witness :
  length [chat_request (outbound "a" initial);
          chat_request (outbound "b" (fst (addMessage_begin "a" initial)))] = 2%nat /\
  (1 + 1 = 0 + 2)%nat.
Proof.
  exact (run_accounting
           [Submit "a"; Submit "b"; Clear; Settle (Throws (ErrorObject "Failed to fetch"))]
           start _ eq_refl).
Defined.

(** X6: the store takes a submission while it is loading, and the loading
    flag is not a count: with two requests out, the first reply, whatever
    it is, ends the loading state while one call is still suspended. *)
Theorem loading_ends_at_first_reply :
  forall (w : World) (first second : string) (reply : completion Response),
  exists w',
    run w [Submit first; Submit second; Settle reply] = Some w' /\
    isLoading (store w') = false /\
    pending w' = S (pending w) /\
    exists added,
      Store.messages (store w') =
        Store.messages (store w) ++ [user_turn first; user_turn second] ++ added.
Proof.
  intros w first second reply.
  pose (twice := {| Store.messages :=
                      (Store.messages (store w) ++ [user_turn first]) ++
                      [user_turn second];
                    isLoading := true;
                    error := None |}).
  destruct (addMessage_resume_messages (sendChatMessage_settled reply) twice)
    as (added & Hadded & _).
  exists {| store := addMessage_resume (sendChatMessage_settled reply) twice;
            wire := (wire w ++ [chat_request (outbound first (store w))]) ++
                    [chat_request
                       (SYSTEM_MESSAGE ::
                        (Store.messages (store w) ++ [user_turn first]) ++
                        [user_turn second])];
            pending := S (pending w) |}.
  split; [reflexivity |]. cbn [store pending].
  split; [apply addMessage_resume_isLoading |]. split; [reflexivity |].
  exists added. rewrite Hadded. unfold twice; cbn [Store.messages].
  now rewrite <- !app_assoc.
Qed.

(** X7: a clear does not cancel a request in flight: when the reply arrives
    with text [r], it is appended to the emptied store, which then holds
    an assistant message and no user message. *)
Theorem clear_in_flight_reply_lands :
  forall (w : World) (response : Response) (data : value) (r : string),
    pending w <> 0%nat ->
    ok response = true ->
    json response = Returns data ->
    dot_response data = Returns (VStr r) ->
    run w [Clear; Settle (Returns response)] =
    Some {| store := {| Store.messages := [assistant_turn r];
                        isLoading := false;
                        error := None |};
            wire := wire w;
            pending := Nat.pred (pending w) |}.
Proof.
  intros w response data r Hpending Hok Hjson Hread. cbn.
  destruct (pending w) as [| n]; [congruence |]. cbn [Nat.pred].
  unfold sendChatMessage_settled; cbn [bind]. rewrite Hok; cbn [negb].
  rewrite Hjson; cbn [bind try_catch].
  unfold addMessage_resume; cbn [bind]. rewrite Hread. reflexivity.
Qed.

Lemma clear_in_flight_reply_lands_witness :
  run {| store := fst (addMessage_begin "What are mangroves?" initial);
         wire := [chat_request (outbound "What are mangroves?" initial)];
         pending := 1 |}
      [Clear;
       Settle (Returns {| status := 200;
                          json := Returns (VObj [("response"%string,
                                                  VStr "Coastal trees.")]) |})] =
  Some {| store := {| Store.messages := [assistant_turn "Coastal trees."];
                      isLoading := false;
                      error := None |};
          wire := [chat_request (outbound "What are mangroves?" initial)];
          pending := 0 |}.
Proof.
  apply (clear_in_flight_reply_lands
           {| store := fst (addMessage_begin "What are mangroves?" initial);
              wire := [chat_request (outbound "What are mangroves?" initial)];
              pending := 1 |}
           {| status := 200;
              json := Returns (VObj [("response"%string, VStr "Coastal trees.")]) |}
           (VObj [("response"%string, VStr "Coastal trees.")])
           "Coastal trees.");
    [discriminate | reflexivity | reflexivity | reflexivity].
Defined.

Lemma ForallOrdPairs_snoc {A : Type} (R : A -> A -> Prop) (l : list A) (x : A) :
  ForallOrdPairs R l -> Forall (fun y => R y x) l -> ForallOrdPairs R (l ++ [x]).
Proof.
  induction 1 as [| a l Ha Hl IH]; intros Hx; cbn.
  - repeat constructor.
  - inversion Hx; subst. constructor; [| now apply IH].
    apply Forall_app; split; [exact Ha | now constructor].
Qed.

Lemma step_cumulative w ev w' :
  is_clear ev = false ->
  step w ev = Some w' ->
  Forall (fun request =>
            exists rest,
              SYSTEM_MESSAGE :: Store.messages (store w) =
              Api.messages (body request) ++ rest) (wire w) /\
  ForallOrdPairs (fun earlier later =>
                    exists more,
                      Api.messages (body later) =
                      Api.messages (body earlier) ++ more) (wire w) ->
  Forall (fun request =>
            exists rest,
              SYSTEM_MESSAGE :: Store.messages (store w') =
              Api.messages (body request) ++ rest) (wire w') /\
  ForallOrdPairs (fun earlier later =>
                    exists more,
                      Api.messages (body later) =
                      Api.messages (body earlier) ++ more) (wire w').
Proof.
  intros Hev Hstep [Hsent Hpairs].
  pose proof (step_messages _ _ _ Hstep) as Hm.
  pose proof (step_wire _ _ _ Hstep) as Hw.
  destruct ev as [content | reply | | e]; try discriminate Hev; rewrite Hw.
  - rewrite Hm. split.
    + apply Forall_app; split.
      * eapply Forall_impl; [| exact Hsent].
        intros request (rest & Hrest). exists (rest ++ [user_turn content]).
        rewrite app_assoc, <- Hrest. reflexivity.
      * constructor; [| constructor]. exists []. now rewrite app_nil_r.
    + apply ForallOrdPairs_snoc; [exact Hpairs |].
      eapply Forall_impl; [| exact Hsent].
      intros request (rest & Hrest). exists (rest ++ [user_turn content]).
      unfold chat_request, outbound; cbn [body Api.messages].
      rewrite app_assoc, <- Hrest. reflexivity.
  - destruct Hm as (added & -> & _). split; [| exact Hpairs].
    eapply Forall_impl; [| exact Hsent].
    intros request (rest & Hrest). exists (rest ++ added).
    rewrite app_assoc, <- Hrest. reflexivity.
  - rewrite Hm. now split.
Qed.

(** X5: without a clear the conversation sent to the endpoint is cumulative:
    the message list of every request is a beginning of the persona
    followed by the stored messages, and of two requests the later one
    carries the whole message list of the earlier one, then more. *)
Theorem requests_are_cumulative :
  forall (evs : list Event) (w : World),
    run start evs = Some w ->
    existsb is_clear evs = false ->
    Forall (fun request =>
              exists rest,
                SYSTEM_MESSAGE :: Store.messages (store w) =
                Api.messages (body request) ++ rest) (wire w) /\
    ForallOrdPairs (fun earlier later =>
                      exists more,
                        Api.messages (body later) =
                        Api.messages (body earlier) ++ more) (wire w).
Proof.
  intros evs. generalize start, (conj (Forall_nil _) (FOP_nil _) :
    Forall (fun request => exists rest,
              SYSTEM_MESSAGE :: Store.messages (store start) =
              Api.messages (body request) ++ rest) (wire start) /\
    ForallOrdPairs (fun earlier later => exists more,
              Api.messages (body later) =
              Api.messages (body earlier) ++ more) (wire start)).
  induction evs as [| ev rest IH]; intros w0 Hw0 w Hrun Hclear; cbn in Hrun.
  - now inversion Hrun; subst.
  - cbn in Hclear. apply orb_false_iff in Hclear as [Hev Hrest].
    destruct (step w0 ev) as [w1 |] eqn:Hstep; [| discriminate].
    apply (IH w1); auto.
    now apply (step_cumulative w0 ev w1).
Qed.

Lemma requests_are_cumulative_witness :
  ForallOrdPairs (fun earlier later =>
                    exists more,
                      Api.messages (body later) =
                      Api.messages (body earlier) ++ more)
    [chat_request [SYSTEM_MESSAGE; user_turn "a"];
     chat_request [SYSTEM_MESSAGE; user_turn "a"; assistant_turn "b"; user_turn "c"]].
Proof.
  exact (proj2 (requests_are_cumulative
                  [Submit "a";
                   Settle (Returns {| status := 200;
                                      json := Returns (VObj [("response"%string,
                                                              VStr "b")]) |});
                   Submit "c"]
                  _ eq_refl eq_refl)).
Defined.

(** ** The input area *)

Section TrimFacts.
Variable white_space : Ascii.ascii -> bool.

Lemma trimStart_split (s : string) :
  exists before,
    s = (before ++ trimStart white_space s)%string /\
    all_in white_space before = true.
Proof.
  induction s as [| c rest (before & Hrest & Hall)]; cbn.
  - now exists EmptyString.
  - destruct (white_space c) eqn:Hc.
    + exists (String c before). cbn. rewrite Hc, Hall. split; [congruence | reflexivity].
    + now exists EmptyString.
Qed.

Lemma trimEnd_split (s : string) :
  exists after,
    s = (trimEnd white_space s ++ after)%string /\
    all_in white_space after = true.
Proof.
  induction s as [| c rest (after & Hrest & Hall)]; cbn.
  - now exists EmptyString.
  - destruct (trimEnd white_space rest) as [| d kept] eqn:Hkept.
    + cbn in Hrest. subst after.
      destruct (white_space c) eqn:Hc.
      * exists (String c rest). cbn. now rewrite Hc, Hall.
      * exists rest. now cbn.
    + exists after. cbn. split; [| exact Hall].
      f_equal. exact Hrest.
Qed.

Lemma all_in_trimStart (s : string) :
  all_in white_space (trimStart white_space s) = all_in white_space s.
Proof.
  induction s as [| c rest IH]; cbn; [reflexivity |].
  destruct (white_space c) eqn:Hc; cbn; [exact IH | now rewrite Hc].
Qed.

Lemma trimEnd_empty_iff (s : string) :
  trimEnd white_space s = EmptyString <-> all_in white_space s = true.
Proof.
  induction s as [| c rest IH]; cbn; [tauto |].
  destruct (trimEnd white_space rest) as [| d kept].
  - assert (Hrest : all_in white_space rest = true) by now apply IH.
    rewrite Hrest, andb_true_r.
    destruct (white_space c); split; congruence.
  - destruct (all_in white_space rest).
    + destruct IH as [_ IH]. discriminate (IH eq_refl).
    + rewrite andb_false_r. split; discriminate.
Qed.

Lemma trim_empty_iff (s : string) :
  trim white_space s = EmptyString <-> all_in white_space s = true.
Proof.
  unfold trim. rewrite trimEnd_empty_iff. now rewrite all_in_trimStart.
Qed.

Lemma trimStart_first (s : string) (c : Ascii.ascii) :
  first_char (trimStart white_space s) = Some c -> white_space c = false.
Proof.
  induction s as [| d rest IH]; cbn; [discriminate |].
  destruct (white_space d) eqn:Hd; [exact IH |].
  cbn. intros H; inversion H; subst. exact Hd.
Qed.

Lemma trimEnd_first (s : string) (c : Ascii.ascii) :
  first_char (trimEnd white_space s) = Some c -> first_char s = Some c.
Proof.
  destruct s as [| d rest]; cbn; [discriminate |].
  destruct (trimEnd white_space rest); [destruct (white_space d) |];
    cbn; congruence.
Qed.

Lemma trimEnd_last (s : string) (c : Ascii.ascii) :
  last_char (trimEnd white_space s) = Some c -> white_space c = false.
Proof.
  induction s as [| d rest IH]; cbn; [discriminate |].
  destruct (trimEnd white_space rest) as [| e kept].
  - destruct (white_space d) eqn:Hd; cbn; [discriminate |].
    intros H; inversion H; subst. exact Hd.
  - exact IH.
Qed.

Lemma trimStart_fixed (s : string) :
  (forall c, first_char s = Some c -> white_space c = false) ->
  trimStart white_space s = s.
Proof.
  destruct s as [| c rest]; cbn; [reflexivity |].
  intros H. now rewrite (H c eq_refl).
Qed.

Lemma trimEnd_fixed (s : string) :
  (forall c, last_char s = Some c -> white_space c = false) ->
  trimEnd white_space s = s.
Proof.
  induction s as [| c rest IH]; [reflexivity |].
  intros H. cbn [trimEnd].
  destruct rest as [| d rest'].
  - cbn. now rewrite (H c eq_refl).
  - rewrite IH; [reflexivity |]. intros x Hx. apply H. exact Hx.
Qed.

Lemma trim_no_margin (s : string) :
  no_margin white_space (trim white_space s).
Proof.
  unfold trim. split; intros c Hc.
  - apply trimEnd_first in Hc. now apply trimStart_first in Hc.
  - now apply trimEnd_last in Hc.
Qed.

Lemma trim_fixed (s : string) :
  no_margin white_space s -> trim white_space s = s.
Proof.
  intros [Hfirst Hlast]. unfold trim.
  rewrite trimStart_fixed by exact Hfirst. now apply trimEnd_fixed.
Qed.

Lemma trim_split (s : string) :
  exists before after,
    s = (before ++ trim white_space s ++ after)%string /\
    all_in white_space before = true /\
    all_in white_space after = true.
Proof.
  destruct (trimStart_split s) as (before & Hs & Hbefore).
  destruct (trimEnd_split (trimStart white_space s)) as (after & Ht & Hafter).
  exists before, after. unfold trim. now rewrite <- Ht.
Qed.

Lemma truthy_false_iff (s : string) : truthy s = false <-> s = EmptyString.
Proof. destruct s; cbn; split; congruence. Qed.

Lemma nothing_to_send_iff (message : string) (isLoading : bool) :
  truthy (trim white_space message) && negb isLoading = false <->
  all_in white_space message = true \/ isLoading = true.
Proof.
  rewrite andb_false_iff, truthy_false_iff, trim_empty_iff, negb_false_iff.
  tauto.
Qed.

(** X8: when [handleSend] calls [onSendMessage], no request is loading, the
    argument is the draft without the white space around it, it is not
    empty and has no white space at either end, and the draft is emptied. *)
Theorem handleSend_sends_trimmed :
  forall (message : string) (isLoading : bool) (content next : string),
    handleSend white_space message isLoading = (Some content, next) ->
    isLoading = false /\
    next = EmptyString /\
    content = trim white_space message /\
    content <> EmptyString /\
    no_margin white_space content /\
    trim white_space content = content /\
    exists before after,
      message = (before ++ content ++ after)%string /\
      all_in white_space before = true /\
      all_in white_space after = true.
Proof.
  intros message isLoading content next. unfold handleSend.
  destruct (truthy (trim white_space message) && negb isLoading) eqn:Hguard;
    [| discriminate].
  intros H; inversion H; subst; clear H.
  apply andb_true_iff in Hguard as [Htruthy Hloading].
  apply negb_true_iff in Hloading.
  repeat split; auto.
  - intros Hempty. rewrite Hempty in Htruthy. discriminate.
  - apply trim_no_margin.
  - apply trim_no_margin.
  - apply trim_fixed, trim_no_margin.
  - apply trim_split.
Qed.

(** X9: [handleSend] does nothing, and keeps the draft, exactly when the
    draft is blank or a request is loading; this is exactly when the send
    button is disabled, and when the button is enabled a click sends and
    empties the draft. *)
Theorem handleSend_nothing_iff_disabled :
  forall (message : string) (isLoading : bool),
    (handleSend white_space message isLoading = (None, message) <->
     all_in white_space message = true \/ isLoading = true) /\
    (button_disabled white_space message isLoading = true <->
     all_in white_space message = true \/ isLoading = true) /\
    (button_disabled white_space message isLoading = false <->
     handleSend white_space message isLoading =
       (Some (trim white_space message), EmptyString)).
Proof.
  intros message isLoading.
  pose proof (nothing_to_send_iff message isLoading) as Hiff.
  unfold handleSend, button_disabled.
  destruct (truthy (trim white_space message)); destruct isLoading; cbn in *;
    repeat split; intros; try tauto; try discriminate; intuition discriminate.
Qed.

Lemma handleSend_sends_iff (message : string) (isLoading : bool) :
  (exists content, fst (handleSend white_space message isLoading) = Some content) <->
  all_in white_space message = false /\ isLoading = false.
Proof.
  pose proof (nothing_to_send_iff message isLoading) as Hiff.
  unfold handleSend.
  destruct (truthy (trim white_space message) && negb isLoading); cbn [fst].
  - split; [intros _ | now eexists].
    destruct (all_in white_space message), isLoading; auto;
      destruct Hiff as [_ Hiff]; discriminate Hiff; auto.
  - split; [intros (content & H); discriminate H |].
    intros [Hblank Hload]. destruct Hiff as [Hiff _].
    destruct (Hiff eq_refl); congruence.
Qed.

(** X10: a key press calls [preventDefault] exactly for Enter without Shift,
    and it sends exactly when, besides, the draft is not blank and no
    request is loading; any other key leaves the draft alone. *)
Theorem handleKeyPress_sends_iff :
  forall (e : KeyboardEvent) (message : string) (isLoading : bool),
    (fst (handleKeyPress white_space e message isLoading) = true <->
     key e = "Enter"%string /\ shiftKey e = false) /\
    ((exists content,
         fst (snd (handleKeyPress white_space e message isLoading)) = Some content) <->
     key e = "Enter"%string /\ shiftKey e = false /\
     all_in white_space message = false /\ isLoading = false) /\
    snd (handleKeyPress white_space e message isLoading) =
      (if fst (handleKeyPress white_space e message isLoading)
       then handleSend white_space message isLoading
       else (None, message)).
Proof.
  intros e message isLoading.
  pose proof (handleSend_sends_iff message isLoading) as Hsend.
  unfold handleKeyPress.
  destruct (String.eqb_spec (key e) "Enter") as [Hkey | Hkey];
    destruct (shiftKey e); cbn [andb negb fst snd].
  - split; [| split]; [| | reflexivity].
    + split; [discriminate | intros [_ H]; discriminate H].
    + split; [intros (c & H); discriminate H | intros (_ & H & _); discriminate H].
  - split; [| split]; [| | reflexivity].
    + tauto.
    + rewrite Hsend. tauto.
  - split; [| split]; [| | reflexivity].
    + split; [discriminate | intros [_ H]; discriminate H].
    + split; [intros (c & H); discriminate H | intros (_ & H & _); discriminate H].
  - split; [| split]; [| | reflexivity].
    + split; [discriminate | intros [H _]; contradiction].
    + split; [intros (c & H); discriminate H | intros (H & _); contradiction].
Qed.

End TrimFacts.

Lemma handleSend_sends_trimmed_witness :
  handleSend ascii_white_space "  What are mangroves? " false =
    (Some "What are mangroves?"%string, EmptyString) /\
  trim ascii_white_space "What are mangroves?" = "What are mangroves?"%string.
Proof.
  split; [reflexivity |].
  exact (proj1 (proj2 (proj2 (proj2 (proj2 (proj2
           (handleSend_sends_trimmed ascii_white_space
              "  What are mangroves? " false "What are mangroves?" EmptyString
              eq_refl))))))).
Defined.

(** ** The page: input area and store together *)

Lemma last_role_app (previous : Role) (a b : list Message) :
  last_role previous (a ++ b) = last_role (last_role previous a) b.
Proof.
  revert previous. induction a as [| m a IH]; intros previous; cbn; auto.
Qed.

Lemma replies_follow_app (previous : Role) (a b : list Message) :
  replies_follow previous (a ++ b) =
  replies_follow previous a && replies_follow (last_role previous a) b.
Proof.
  revert previous. induction a as [| m a IH]; intros previous; cbn; [reflexivity |].
  destruct (role m), previous; cbn; auto.
Qed.

(** In a list where replies follow, the messages before an assistant
    message end with a user message. *)
Lemma replies_follow_before (previous : Role) (ms before after : list Message)
  (a : Message) :
  replies_follow previous ms = true ->
  ms = before ++ a :: after ->
  role a = assistant ->
  last_role previous before = user.
Proof.
  intros Hfollow -> Ha.
  rewrite replies_follow_app in Hfollow.
  apply andb_true_iff in Hfollow as [_ Hfollow].
  cbn in Hfollow. rewrite Ha in Hfollow.
  destruct (last_role previous before); congruence.
Qed.

Lemma last_role_inv (previous r : Role) (ms : list Message) :
  last_role previous ms = r ->
  (ms = [] /\ previous = r) \/
  exists earlier q, ms = earlier ++ [q] /\ role q = r.
Proof.
  revert previous. induction ms as [| m ms IH]; intros previous H; cbn in H.
  - now left.
  - right. destruct (IH _ H) as [[-> Hm] | (earlier & q & -> & Hq)].
    + now exists [], m.
    + now exists (m :: earlier), q.
Qed.

Section PageFacts.
Variable white_space : Ascii.ascii -> bool.

Lemma opened_invariant : page_invariant white_space opened.
Proof.
  unfold page_invariant; cbn. repeat split; auto; discriminate.
Qed.

Lemma perform_nothing_invariant (p p' : Page) (next : string) :
  page_invariant white_space p ->
  perform p (None, next) = Some p' ->
  page_invariant white_space p'.
Proof.
  unfold perform; cbn. intros Hp H; inversion H; subst. exact Hp.
Qed.

Lemma perform_handleSend_invariant (p p' : Page) :
  page_invariant white_space p ->
  perform p (handleSend white_space (draft p) (isLoading (store (session p)))) =
    Some p' ->
  page_invariant white_space p'.
Proof.
  intros Hp Hperform.
  destruct (handleSend white_space (draft p) (isLoading (store (session p))))
    as [[content |] next] eqn:Hsend.
  - apply handleSend_sends_trimmed in Hsend
      as (Hload & _ & _ & Hnonempty & Hmargin & Htrim & _).
    destruct Hp as (Hone & Hflag & _ & Hfollow & Htyped).
    rewrite Hload in Hflag.
    assert (Hzero : pending (session p) = 0%nat).
    { destruct (pending (session p)) as [| [| n]]; [reflexivity | discriminate | lia]. }
    unfold perform in Hperform; cbn in Hperform.
    inversion Hperform; subst; clear Hperform.
    unfold page_invariant; cbn. rewrite Hzero.
    repeat split; auto.
    + now rewrite last_role_app.
    + rewrite replies_follow_app, Hfollow. reflexivity.
    + apply Forall_app; split; [exact Htyped |].
      constructor; [| constructor].
      intros _. exists content. cbn. auto.
  - now apply (perform_nothing_invariant p p' next).
Qed.

Lemma act_invariant (p p' : Page) (a : Action) :
  page_invariant white_space p ->
  act white_space p a = Some p' ->
  page_invariant white_space p'.
Proof.
  intros Hp Hact.
  destruct a as [value | e | | reply]; unfold act in Hact; cbv beta iota zeta in Hact.
  - inversion Hact; subst. exact Hp.
  - destruct (handleKeyPress_sends_iff white_space e (draft p)
                (isLoading (store (session p)))) as (_ & _ & Hsnd).
    rewrite Hsnd in Hact.
    destruct (fst (handleKeyPress white_space e (draft p)
                     (isLoading (store (session p))))).
    + exact (perform_handleSend_invariant p p' Hp Hact).
    + exact (perform_nothing_invariant p p' (draft p) Hp Hact).
  - exact (perform_handleSend_invariant p p' Hp Hact).
  - destruct Hp as (Hone & Hflag & Hloading & Hfollow & Htyped).
    unfold step in Hact.
    destruct (pending (session p)) as [| n] eqn:Hpending; [discriminate |].
    assert (n = 0%nat) by lia; subst n.
    inversion Hact; subst; clear Hact.
    destruct (Hloading Hflag) as [_ Hlast].
    destruct (addMessage_resume_messages (sendChatMessage_settled reply)
                (store (session p))) as (added & Hadded & Hlen & Hroles).
    unfold page_invariant; cbn.
    rewrite addMessage_resume_isLoading, Hadded.
    repeat split; auto; try discriminate.
    + rewrite replies_follow_app, Hfollow, Hlast.
      destruct added as [| m [| m' added]]; cbn in Hlen |- *; [reflexivity | | lia].
      inversion Hroles as [| ? ? Hm]; subst. now rewrite Hm.
    + apply Forall_app; split; [exact Htyped |].
      eapply Forall_impl; [| exact Hroles].
      intros m Hm Huser. congruence.
Qed.

Lemma browse_invariant (actions : list Action) :
  forall p p',
    page_invariant white_space p ->
    browse white_space p actions = Some p' ->
    page_invariant white_space p'.
Proof.
  induction actions as [| a rest IH]; intros p p' Hp Hbrowse; cbn in Hbrowse.
  - now inversion Hbrowse; subst.
  - destruct (act white_space p a) as [p1 |] eqn:Hact; [| discriminate].
    eapply IH; [eapply act_invariant; eassumption | exact Hbrowse].
Qed.

(** X11: through the page at most one request is in flight at any time: the
    store is loading exactly while one call is suspended, and while it is
    loading it shows no error. *)
Theorem page_single_flight :
  forall (actions : list Action) (p : Page),
    browse white_space opened actions = Some p ->
    (pending (session p) <= 1)%nat /\
    (isLoading (store (session p)) = true <-> pending (session p) = 1%nat) /\
    (isLoading (store (session p)) = true -> error (store (session p)) = None).
Proof.
  intros actions p Hbrowse.
  destruct (browse_invariant actions _ _ opened_invariant Hbrowse)
    as (Hone & Hflag & Hloading & _).
  split; [exact Hone |]. split.
  - rewrite Hflag. apply PeanoNat.Nat.eqb_eq.
  - intros H. now destruct (Hloading H).
Qed.

(** X12: through the page every stored user message is a text that is not
    empty and has no white space at either end. *)
Theorem page_user_messages_trimmed :
  forall (actions : list Action) (p : Page) (m : Message),
    browse white_space opened actions = Some p ->
    In m (Store.messages (store (session p))) ->
    role m = user ->
    exists text,
      content m = VStr text /\ text <> EmptyString /\
      trim white_space text = text /\ no_margin white_space text.
Proof.
  intros actions p m Hbrowse Hin Huser.
  destruct (browse_invariant actions _ _ opened_invariant Hbrowse)
    as (_ & _ & _ & _ & Htyped).
  rewrite Forall_forall in Htyped. exact (Htyped m Hin Huser).
Qed.

(** X13: through the page every assistant message comes directly after a user
    message: the messages before it are not empty and end with a user
    message. *)
Theorem page_replies_follow_questions :
  forall (actions : list Action) (p : Page) (before after : list Message)
         (a : Message),
    browse white_space opened actions = Some p ->
    Store.messages (store (session p)) = before ++ a :: after ->
    role a = assistant ->
    exists earlier q, before = earlier ++ [q] /\ role q = user.
Proof.
  intros actions p before after a Hbrowse Hsplit Ha.
  destruct (browse_invariant actions _ _ opened_invariant Hbrowse)
    as (_ & _ & _ & Hfollow & _).
  pose proof (replies_follow_before _ _ _ _ _ Hfollow Hsplit Ha) as Hlast.
  destruct (last_role_inv _ _ _ Hlast) as [[_ H] | H]; [discriminate | exact H].
Qed.

End PageFacts.

Lemma page_single_flight_witness :
  (1 <= 1)%nat /\
  (true = true <-> 1%nat = 1%nat) /\
  (true = true -> @None string = None).
Proof.
  exact (page_single_flight ascii_white_space
           [Change "  hi "; Click; Click; KeyDown {| key := "Enter"; shiftKey := false |}]
           _ eq_refl).
Defined.

Lemma page_user_messages_trimmed_witness :
  exists text,
    VStr "hi" = VStr text /\ text <> EmptyString /\
    trim ascii_white_space text = text /\ no_margin ascii_white_space text.
Proof.
  exact (page_user_messages_trimmed ascii_white_space
           [Change "  hi "; Click] _ (user_turn "hi")
           eq_refl (or_introl eq_refl) eq_refl).
Defined.

Lemma page_replies_follow_questions_witness :
  exists earlier q, [user_turn "hi"] = earlier ++ [q] /\ role q = user.
Proof.
  exact (page_replies_follow_questions ascii_white_space
           [Change "  hi "; Click;
            Reply (Returns {| status := 200;
                              json := Returns (VObj [("response"%string,
                                                      VStr "hello")]) |})]
           _ [user_turn "hi"] [] (assistant_turn "hello")
           eq_refl eq_refl eq_refl).
Defined.

(** X14: a click on the page composes the input area with the store.  With a
    draft that is not blank and no request loading, the trimmed draft is
    appended as the user message, the request with the whole conversation
    goes out, and the draft is emptied; otherwise the page stays as it
    is. *)
Theorem click_submits_or_ignores :
  forall (white_space : Ascii.ascii -> bool) (p : Page),
    (all_in white_space (draft p) = false ->
     isLoading (store (session p)) = false ->
     act white_space p Click =
     Some {| session :=
               {| store := {| Store.messages :=
                                Store.messages (store (session p)) ++
                                [user_turn (trim white_space (draft p))];
                              isLoading := true;
                              error := None |};
                  wire := wire (session p) ++
                          [chat_request
                             (outbound (trim white_space (draft p))
                                       (store (session p)))];
                  pending := S (pending (session p)) |};
             draft := EmptyString |}) /\
    (all_in white_space (draft p) = true \/ isLoading (store (session p)) = true ->
     act white_space p Click = Some p).
Proof.
  intros white_space p.
  pose proof (nothing_to_send_iff white_space (draft p)
                (isLoading (store (session p)))) as Hiff.
  unfold act, handleSend.
  destruct (truthy (trim white_space (draft p)) &&
            negb (isLoading (store (session p)))) eqn:Hguard.
  - split.
    + intros _ _. reflexivity.
    + intros H. apply Hiff in H. discriminate H.
  - split.
    + intros Hblank Hload. destruct Hiff as [Hiff _].
      destruct (Hiff eq_refl); congruence.
    + intros _. destruct p; reflexivity.
Qed.

Lemma click_submits_or_ignores_witness :
  act ascii_white_space {| session := start; draft := " hi " |} Click =
  Some {| session :=
            {| store := {| Store.messages := [user_turn "hi"];
                           isLoading := true;
                           error := None |};
               wire := [chat_request [SYSTEM_MESSAGE; user_turn "hi"]];
               pending := 1 |};
          draft := EmptyString |}.
Proof.
  exact (proj1 (click_submits_or_ignores ascii_white_space
                  {| session := start; draft := " hi " |})
           eq_refl eq_refl).
Defined.

(** ** A conversation in which every exchange is answered *)

Lemma addMessage_answered (response : Response) (data : value) (r : string)
  (content : string) (s : ChatState) :
  ok response = true ->
  json response = Returns data ->
  dot_response data = Returns (VStr r) ->
  addMessage (answers response) content s =
  {| Store.messages := Store.messages s ++ [user_turn content; assistant_turn r];
     isLoading := false;
     error := None |}.
Proof.
  intros Hok Hjson Hread.
  rewrite addMessage_unfold.
  unfold sendChatMessage, sendChatMessage_settled, answers; cbn [bind].
  rewrite Hok; cbn [negb]. rewrite Hjson; cbn [bind try_catch].
  unfold addMessage_resume; cbn [bind]. rewrite Hread.
  unfold set, merge; cbn. now rewrite <- app_assoc.
Qed.

(** X15: when the endpoint answers every request with a success status and the
    text [r], a sequence of submissions, each settled before the next,
    leaves the earlier messages followed by one user message and one
    assistant message per submission, in order; after at least one
    submission the store is not loading and has no error. *)
Theorem converse_all_answered :
  forall (response : Response) (data : value) (r : string)
         (contents : list string) (s : ChatState),
    ok response = true ->
    json response = Returns data ->
    dot_response data = Returns (VStr r) ->
    Store.messages (converse (answers response) contents s) =
      Store.messages s ++
      flat_map (fun content => [user_turn content; assistant_turn r]) contents /\
    (contents <> [] ->
     isLoading (converse (answers response) contents s) = false /\
     error (converse (answers response) contents s) = None).
Proof.
  intros response data r contents s Hok Hjson Hread.
  revert s. induction contents as [| content rest IH]; intros s; cbn [converse flat_map].
  - rewrite app_nil_r. split; [reflexivity | congruence].
  - rewrite (addMessage_answered response data r content s Hok Hjson Hread).
    destruct (IH {| Store.messages :=
                      Store.messages s ++ [user_turn content; assistant_turn r];
                    isLoading := false; error := None |}) as [Hmessages Hflags].
    split.
    + rewrite Hmessages. cbn [Store.messages]. now rewrite <- app_assoc.
    + intros _. destruct rest as [| next rest]; [now cbn | apply Hflags; discriminate].
Qed.

Lemma converse_all_answered_witness :
  Store.messages
    (converse
       (answers {| status := 200;
                   json := Returns (VObj [("response"%string, VStr "ok")]) |})
       ["a"; "b"]%string initial) =
  [user_turn "a"; assistant_turn "ok"; user_turn "b"; assistant_turn "ok"].
Proof.
  exact (proj1 (converse_all_answered
                  {| status := 200;
                     json := Returns (VObj [("response"%string, VStr "ok")]) |}
                  (VObj [("response"%string, VStr "ok")]) "ok"
                  ["a"; "b"]%string initial eq_refl eq_refl eq_refl)).
Defined.
